(** * generate_password: charset construction and password sampling

    A shallow embedding of [build_charset] and [generate_password] of
    [main.py], and the properties its specification states about them.

    Python values are modelled as follows.
    - [str] is a list of characters; [''.join] of strings is [concat].
    - [int] is [Z]; [len] results and list indices are [nat].
    - [raise] is the left summand of [exn + A], carrying the exception
      class and its message.
    - The calls into [secrets] thread an entropy source, a stream of
      numbers: the next entry of the stream decides the next bounded draw,
      reduced into the range asked for. The stream is arbitrary, so every
      value below the bound is a possible outcome of a draw and no other
      is; a theorem stated for all streams holds for all outcomes of the
      random choices. *)

From Stdlib Require Import Ascii String.
From Stdlib Require Import List ZArith Lia Bool Arith Permutation.
Import ListNotations.

Local Open Scope list_scope.

(** ** Python values *)

Definition str := list ascii.

Definition len {A : Type} (l : list A) : nat := List.length l.

Definition lit (s : string) : str := list_ascii_of_string s.

Inductive exn : Type :=
| ValueError (msg : string)
| IndexError (msg : string).

(** The three validation failures of the specification, as the code
    raises them: one exception class, told apart by the message. *)
Definition NoCategorySelected : exn :=
  ValueError "At least one character type must be selected.".
Definition AllPoolsEmptied : exn :=
  ValueError "Character sets became empty after excluding ambiguous characters.".
Definition InvalidLength : exn :=
  ValueError "Length must be a positive integer.".

(** ** The error-and-entropy monad *)

Definition rng := nat -> nat.

Definition M (A : Type) : Type := rng -> exn + (A * rng).

Definition ret {A : Type} (a : A) : M A := fun r => inr (a, r).

Definition raise {A : Type} (e : exn) : M A := fun _ => inl e.

Definition bind {A B : Type} (m : M A) (k : A -> M B) : M B :=
  fun r => match m r with
           | inl e => inl e
           | inr (a, r') => k a r'
           end.

Definition lift {A : Type} (x : exn + A) : M A :=
  match x with
  | inl e => raise e
  | inr a => ret a
  end.

Declare Scope py_scope.
Delimit Scope py_scope with py.
Notation "x <- m ;; k" := (bind m (fun x => k))
  (at level 100, m at next level, right associativity) : py_scope.
Local Open Scope py_scope.

(** What the caller observes of a run: the value returned or the
    exception raised. *)
Definition run {A : Type} (m : M A) (r : rng) : exn + A :=
  match m r with
  | inl e => inl e
  | inr (a, _) => inr a
  end.

(** [[f(x) for x in xs]] and [[e for _ in range(n)]], evaluated left to
    right. *)
Fixpoint mapM {A B : Type} (f : A -> M B) (xs : list A) : M (list B) :=
  match xs with
  | [] => ret []
  | x :: xs' => y <- f x ;; ys <- mapM f xs' ;; ret (y :: ys)
  end.

Fixpoint repeatM {A : Type} (n : nat) (m : M A) : M (list A) :=
  match n with
  | O => ret []
  | S n' => y <- m ;; ys <- repeatM n' m ;; ret (y :: ys)
  end.

(** ** The [secrets] module *)

Definition advance (r : rng) : rng := fun k => r (S k).

(** [secrets.randbelow(n)]: an integer in [[0, n)]. *)
Definition randbelow (n : nat) : M nat :=
  fun r => match n with
           | O => inl (ValueError "Upper bound must be positive.")
           | S _ => inr (r 0 mod n, advance r)
           end.

(** [seq[i]] and [seq[i] = x] on a list. *)
Definition getitem {A : Type} (l : list A) (i : nat) : M A :=
  match nth_error l i with
  | Some x => ret x
  | None => raise (IndexError "list index out of range")
  end.

Fixpoint update {A : Type} (l : list A) (i : nat) (x : A) : list A :=
  match l, i with
  | [], _ => []
  | _ :: l', O => x :: l'
  | a :: l', S i' => a :: update l' i' x
  end.

Definition setitem {A : Type} (l : list A) (i : nat) (x : A) : M (list A) :=
  if i <? len l then ret (update l i x)
  else raise (IndexError "list assignment index out of range").

(** [secrets.choice(seq)]. *)
Definition choice {A : Type} (seq : list A) : M A :=
  match seq with
  | [] => raise (IndexError "Cannot choose from an empty sequence")
  | _ :: _ => i <- randbelow (len seq) ;; getitem seq i
  end.

(** ** Module constants *)

Definition ascii_lowercase : str := lit "abcdefghijklmnopqrstuvwxyz".
Definition ascii_uppercase : str := lit "ABCDEFGHIJKLMNOPQRSTUVWXYZ".
Definition digits : str := lit "0123456789".
Definition SYMBOLS : str := lit "!@#$%^&*()-_=+[]{}<>?/".

(** [AMBIGUOUS]: the set of the twelve characters I, l, 1, O, 0, backtick,
    apostrophe, double quote (character 34), full stop, comma, semicolon and
    colon. Only membership is ever asked of it. *)
Definition AMBIGUOUS : list ascii :=
  lit "Il1O0`'" ++ [ascii_of_nat 34] ++ lit ".,;:".

Definition mem (ch : ascii) (s : list ascii) : bool :=
  existsb (Ascii.eqb ch) s.

(** [if p] on a string: true when non-empty. *)
Definition truthy {A : Type} (p : list A) : bool :=
  match p with
  | [] => false
  | _ :: _ => true
  end.

(** ** The program

    The reference alphabets and the ambiguous set are module-level values
    the source invites the user to edit; the functions are written once
    over them and then instantiated at the values of [main.py]. *)

Section Configurable.

Variables lower upper digs symbols : str.
Variable ambiguous : list ascii.

Definition strip (s : str) : str :=
  filter (fun ch => negb (mem ch ambiguous)) s.

Definition build_charset_with
    (use_lower use_upper use_digits use_symbols exclude_ambiguous : bool)
  : exn + list str :=
  let parts := [] in
  let parts := if use_lower then parts ++ [lower] else parts in
  let parts := if use_upper then parts ++ [upper] else parts in
  let parts := if use_digits then parts ++ [digs] else parts in
  let parts := if use_symbols then parts ++ [symbols] else parts in
  if negb (truthy parts) then
    inl (ValueError "At least one character type must be selected.")
  else
    let parts := if exclude_ambiguous then map strip parts else parts in
    let parts := filter truthy parts in
    if negb (truthy parts) then
      inl (ValueError
             "Character sets became empty after excluding ambiguous characters.")
    else inr parts.

(** [password_chars[i], password_chars[j] = password_chars[j], password_chars[i]] *)
Definition swap (password_chars : str) (i j : nat) : M str :=
  x <- getitem password_chars j ;;
  y <- getitem password_chars i ;;
  l <- setitem password_chars i x ;;
  setitem l j y.

(** [for i in range(start, 0, -1)]: the loop body at [i], then on to
    [i - 1], until [0] is reached. *)
Fixpoint shuffle_from (i : nat) (password_chars : str) : M str :=
  match i with
  | O => ret password_chars
  | S i' =>
      j <- randbelow (i + 1) ;;
      password_chars <- swap password_chars i j ;;
      shuffle_from i' password_chars
  end.

Definition generate_password_with
    (length : Z)
    (use_lower use_upper use_digits use_symbols exclude_ambiguous : bool)
  : M str :=
  if (length <=? 0)%Z then
    raise (ValueError "Length must be a positive integer.")
  else
    parts <- lift (build_charset_with use_lower use_upper use_digits
                                      use_symbols exclude_ambiguous) ;;
    let pool := concat parts in
    if (length <? Z.of_nat (len parts))%Z then
      repeatM (Z.to_nat length) (choice pool)
    else
      password_chars <- mapM choice parts ;;
      let remaining := (length - Z.of_nat (len password_chars))%Z in
      fill <- repeatM (Z.to_nat remaining) (choice pool) ;;
      let password_chars := password_chars ++ fill in
      shuffle_from (len password_chars - 1) password_chars.

End Configurable.

Definition build_charset : bool -> bool -> bool -> bool -> bool -> exn + list str :=
  build_charset_with ascii_lowercase ascii_uppercase digits SYMBOLS AMBIGUOUS.

Definition generate_password : Z -> bool -> bool -> bool -> bool -> bool -> M str :=
  generate_password_with ascii_lowercase ascii_uppercase digits SYMBOLS AMBIGUOUS.

(** [generate_password(length)] with every default argument. *)
Definition generate_password_default (length : Z) : M str :=
  generate_password length true true true true false.

(** ** The specification's vocabulary *)

Inductive Category : Type := Lowercase | Uppercase | Digits | Symbols.

Definition declaration_order : list Category :=
  [Lowercase; Uppercase; Digits; Symbols].

Definition enabled (use_lower use_upper use_digits use_symbols : bool)
    (c : Category) : bool :=
  match c with
  | Lowercase => use_lower
  | Uppercase => use_upper
  | Digits => use_digits
  | Symbols => use_symbols
  end.

Definition alphabet_of (lower upper digs symbols : str) (c : Category) : str :=
  match c with
  | Lowercase => lower
  | Uppercase => upper
  | Digits => digs
  | Symbols => symbols
  end.

Definition reference_alphabet : Category -> str :=
  alphabet_of ascii_lowercase ascii_uppercase digits SYMBOLS.

(** The Pool of a category, in the specification's words: the reference
    alphabet, with the ambiguous characters removed when exclusion is on. *)
Definition pool_with (alphabet : Category -> str) (ambiguous : list ascii)
    (exclude_ambiguous : bool) (c : Category) : str :=
  if exclude_ambiguous
  then filter (fun ch => negb (mem ch ambiguous)) (alphabet c)
  else alphabet c.

Definition Pool : bool -> Category -> str :=
  pool_with reference_alphabet AMBIGUOUS.

(** The surviving categories: enabled, and with a Pool that is not empty. *)
Definition survives (pool : Category -> str)
    (use_lower use_upper use_digits use_symbols : bool) (c : Category) : bool :=
  enabled use_lower use_upper use_digits use_symbols c && truthy (pool c).

(** The surviving Pools, in the declaration order of their categories. *)
Definition surviving_pools (pool : Category -> str)
    (use_lower use_upper use_digits use_symbols : bool) : list str :=
  map pool
      (filter (survives pool use_lower use_upper use_digits use_symbols)
              declaration_order).

(** [subseq p s]: [p] is [s] with some elements left out, the others in
    their order. *)
Inductive subseq {A : Type} : list A -> list A -> Prop :=
| subseq_nil : subseq [] []
| subseq_skip x p s : subseq p s -> subseq p (x :: s)
| subseq_keep x p s : subseq p s -> subseq (x :: p) (x :: s).

(** A stream of draws that starts with [j] and goes on as [r]. *)
Definition scons (j : nat) (r : rng) : rng :=
  fun k => match k with
           | O => j
           | S k' => r k'
           end.

(** ** The command line: [cli_main]

    [cli_main] is modelled from the [Namespace] that
    [parser.parse_args()] returns. What it does to the outside is kept in
    a [world]: the texts given to [print], one entry for each call, for
    the standard output and for the standard error, what [pyperclip.copy]
    last stored, and the entropy source. The flags [_HAS_TK] and
    [_HAS_PYPERCLIP], set when the module is imported, are arguments. *)

Record Namespace : Type := {
  arg_length : Z;
  arg_no_lower : bool;
  arg_no_upper : bool;
  arg_no_digits : bool;
  arg_no_symbols : bool;
  arg_exclude_ambiguous : bool;
  arg_count : Z;
  arg_gui : bool;
  arg_copy : bool
}.

Record world : Type := {
  stdout : list str;
  stderr : list str;
  clipboard : option str;
  entropy : rng
}.

Definition print (text : str) (w : world) : world :=
  {| stdout := stdout w ++ [text]; stderr := stderr w;
     clipboard := clipboard w; entropy := entropy w |}.

Definition print_stderr (text : str) (w : world) : world :=
  {| stdout := stdout w; stderr := stderr w ++ [text];
     clipboard := clipboard w; entropy := entropy w |}.

Definition pyperclip_copy (text : str) (w : world) : world :=
  {| stdout := stdout w; stderr := stderr w;
     clipboard := Some text; entropy := entropy w |}.

Definition draws_left (r : rng) (w : world) : world :=
  {| stdout := stdout w; stderr := stderr w;
     clipboard := clipboard w; entropy := r |}.

(** How a call of [cli_main] ends: it returns, [sys.exit] is called, an
    exception leaves it, or it has handed over to [launch_gui]. *)
Inductive exit : Type :=
| Returns
| SystemExit (code : Z)
| Raises (e : exn)
| LaunchesGui.

(** [str(e)] of an exception raised with a message. *)
Definition message (e : exn) : string :=
  match e with
  | ValueError msg => msg
  | IndexError msg => msg
  end.

(** [results[-1]] *)
Definition last_item {A : Type} (results : list A) : exn + A :=
  match nth_error results (len results - 1) with
  | Some x => inr x
  | None => inl (IndexError "list index out of range")
  end.

Definition newline : ascii := ascii_of_nat 10.

(** The loop [for _ in range(n)] of [cli_main]: a password is appended to
    [results] and printed at each turn; an exception ends the loop. *)
Fixpoint cli_loop (n : nat) (args : Namespace)
    (use_lower use_upper use_digits use_symbols : bool)
    (results : list str) (w : world) : (exn + list str) * world :=
  match n with
  | O => (inr results, w)
  | S n' =>
      match generate_password (arg_length args) use_lower use_upper
                              use_digits use_symbols
                              (arg_exclude_ambiguous args) (entropy w) with
      | inl e => (inl e, w)
      | inr (pwd, r') =>
          let results := results ++ [pwd] in
          cli_loop n' args use_lower use_upper use_digits use_symbols
                   results (print pwd (draws_left r' w))
      end
  end.

(** The body of the [try] statement of [cli_main]. *)
Definition cli_try (HAS_PYPERCLIP : bool) (args : Namespace)
    (use_lower use_upper use_digits use_symbols : bool) (w : world)
  : (exn + unit) * world :=
  match cli_loop (Z.to_nat (Z.max 1 (arg_count args))) args
                 use_lower use_upper use_digits use_symbols [] w with
  | (inl e, w) => (inl e, w)
  | (inr results, w) =>
      if arg_copy args then
        if HAS_PYPERCLIP then
          match last_item results with
          | inl e => (inl e, w)
          | inr pwd =>
              (inr tt,
               print (newline :: lit "Last password copied to clipboard.")
                     (pyperclip_copy pwd w))
          end
        else
          (inr tt,
           print (newline :: lit "pyperclip not installed — cannot copy to clipboard. Install with: pip install pyperclip")
                 w)
      else (inr tt, w)
  end.

Definition cli_main (HAS_TK HAS_PYPERCLIP : bool) (args : Namespace)
    (w : world) : exit * world :=
  if arg_gui args then
    if negb HAS_TK then
      (SystemExit 1,
       print_stderr (lit "Tkinter is not available in your environment. Install tkinter or run without --gui.") w)
    else (LaunchesGui, w)
  else
    let use_lower := negb (arg_no_lower args) in
    let use_upper := negb (arg_no_upper args) in
    let use_digits := negb (arg_no_digits args) in
    let use_symbols := negb (arg_no_symbols args) in
    match cli_try HAS_PYPERCLIP args use_lower use_upper use_digits
                  use_symbols w with
    | (inr _, w) => (Returns, w)
    | (inl (ValueError msg), w) =>
        (SystemExit 2, print_stderr (lit ("Error: " ++ msg)) w)
    | (inl e, w) => (Raises e, w)
    end.

(** ** The window: [launch_gui] and its two callbacks

    The state the callbacks read and write: the Tk variables behind the
    controls, each holding a value of its type, the variable of the result
    field, the message boxes shown so far, the clipboard and the entropy
    source. The main loop of Tk is outside this model. *)










(** * Properties *)

(** ** Running computations *)

Lemma bind_ok {A B : Type} (m : M A) (k : A -> M B) r a r1 :
  m r = inr (a, r1) -> bind m k r = k a r1.
Proof. unfold bind. intros ->. reflexivity. Qed.

Lemma bind_raise {A B : Type} (m : M A) (k : A -> M B) r e :
  m r = inl e -> bind m k r = inl e.
Proof. unfold bind. intros ->. reflexivity. Qed.

Lemma run_inr {A : Type} (m : M A) r a :
  run m r = inr a <-> exists r', m r = inr (a, r').
Proof.
  unfold run. destruct (m r) as [e | [a' r']]; split.
  - discriminate.
  - intros [r' H]. discriminate.
  - intros H. injection H as ->. eauto.
  - intros [r'' H]. injection H as -> _. reflexivity.
Qed.

Lemma run_inl {A : Type} (m : M A) r e :
  run m r = inl e <-> m r = inl e.
Proof.
  unfold run. destruct (m r) as [e' | [a' r']]; split; congruence.
Qed.

(** ** The entropy source *)

Lemma randbelow_ok n r :
  0 < n -> randbelow n r = inr (r 0 mod n, advance r) /\ r 0 mod n < n.
Proof.
  intros Hn. split.
  - destruct n; [lia | reflexivity].
  - apply Nat.mod_upper_bound. lia.
Qed.

(** Every value below the bound is an outcome of [randbelow]. *)
Lemma randbelow_any n j :
  j < n -> exists r, run (randbelow n) r = inr j.
Proof.
  intros Hj. exists (fun _ => j). apply run_inr.
  exists (advance (fun _ => j)).
  assert (Hn : 0 < n) by lia.
  destruct (randbelow_ok n (fun _ => j) Hn) as [-> _].
  now rewrite Nat.mod_small.
Qed.

Lemma choice_ok {A : Type} (seq : list A) r :
  seq <> [] ->
  exists c, choice seq r = inr (c, advance r)
            /\ nth_error seq (r 0 mod len seq) = Some c.
Proof.
  intros Hne. destruct seq as [| a seq']; [congruence |].
  set (s := a :: seq') in *.
  assert (Hlen : 0 < len s) by (unfold s, len; simpl; lia).
  destruct (randbelow_ok (len s) r Hlen) as [Hr Hlt].
  destruct (nth_error s (r 0 mod len s)) as [c |] eqn:Hc.
  - exists c. split; [| reflexivity].
    change (choice s r) with (bind (randbelow (len s)) (getitem s) r).
    rewrite (bind_ok _ _ _ _ _ Hr). unfold getitem. now rewrite Hc.
  - apply nth_error_None in Hc. unfold len in *. lia.
Qed.

Lemma choice_In {A : Type} (seq : list A) r c r' :
  choice seq r = inr (c, r') -> In c seq.
Proof.
  intros H. destruct seq as [| a seq']; [discriminate |].
  destruct (choice_ok (a :: seq') r) as [c' [H' Hn]]; [discriminate |].
  rewrite H' in H. injection H as -> _. eapply nth_error_In; eauto.
Qed.

(** Every element of the sequence is an outcome of [choice]. *)
Lemma choice_any {A : Type} (seq : list A) c :
  In c seq -> exists r, run (choice seq) r = inr c.
Proof.
  intros Hc. destruct (In_nth_error _ _ Hc) as [n Hn].
  assert (Hlt : n < len seq) by (apply nth_error_Some; congruence).
  exists (fun _ => n). apply run_inr. exists (advance (fun _ => n)).
  destruct (choice_ok seq (fun _ => n)) as [c' [Hr Hc']].
  { intros ->. simpl in Hc. contradiction. }
  rewrite Nat.mod_small in Hc' by assumption.
  rewrite Hr. congruence.
Qed.

(** [n] draws from a non-empty pool: the [k]-th character is the one at
    the [k]-th drawn position, in drawing order. *)
Lemma repeatM_choice {A : Type} (pool : list A) (d : A) n :
  pool <> [] ->
  forall r,
    repeatM n (choice pool) r
    = inr (map (fun k => nth (r k mod len pool) pool d) (seq 0 n),
           fun k => r (n + k)).
Proof.
  intros Hne. induction n as [| n IH]; intros r.
  - reflexivity.
  - destruct (choice_ok pool r Hne) as [c [Hc Hn]].
    cbn [repeatM]. rewrite (bind_ok _ _ _ _ _ Hc).
    rewrite (bind_ok _ _ _ _ _ (IH (advance r))).
    unfold ret. cbn [seq map]. rewrite <- seq_shift, map_map.
    rewrite (nth_error_nth _ _ d Hn). reflexivity.
Qed.

Lemma mapM_choice {A : Type} (parts : list (list A)) :
  Forall (fun p => p <> []) parts ->
  forall r, exists cs r',
    mapM choice parts r = inr (cs, r')
    /\ Forall2 (fun p c => In c p) parts cs.
Proof.
  induction 1 as [| p parts Hp _ IH]; intros r.
  - exists [], r. split; [reflexivity | constructor].
  - destruct (choice_ok p r Hp) as [c [Hc Hn]].
    destruct (IH (advance r)) as [cs [r' [Hcs Hall]]].
    exists (c :: cs), r'. split.
    + cbn [mapM]. rewrite (bind_ok _ _ _ _ _ Hc).
      now rewrite (bind_ok _ _ _ _ _ Hcs).
    + constructor; [eapply nth_error_In; eauto | assumption].
Qed.

(** ** The shuffle *)

Lemma update_length {A : Type} (l : list A) i x :
  len (update l i x) = len l.
Proof.
  unfold len. revert i.
  induction l as [| a l IH]; intros [| i]; simpl; try reflexivity.
  now rewrite IH.
Qed.

Lemma update_move {A : Type} (l : list A) j a x :
  nth_error l j = Some x ->
  Permutation (a :: l) (x :: update l j a).
Proof.
  revert j. induction l as [| b l IH]; intros [| j] Hj; simpl in *;
    try discriminate.
  - injection Hj as ->. apply perm_swap.
  - eapply perm_trans; [apply perm_swap |].
    eapply perm_trans; [apply perm_skip, (IH _ Hj) |]. apply perm_swap.
Qed.

Lemma update_exchange {A : Type} (l : list A) i j x y :
  nth_error l j = Some x ->
  nth_error l i = Some y ->
  Permutation l (update (update l i x) j y).
Proof.
  revert i j. induction l as [| a l IH]; intros [| i] [| j] Hj Hi;
    simpl in *; try discriminate.
  - injection Hj as ->. injection Hi as ->. apply Permutation_refl.
  - injection Hi as ->. now apply update_move.
  - injection Hj as ->. now apply update_move.
  - apply perm_skip. now apply IH.
Qed.

Lemma swap_ok (password_chars : str) i j r :
  i < len password_chars -> j < len password_chars ->
  exists l, swap password_chars i j r = inr (l, r)
            /\ Permutation password_chars l.
Proof.
  intros Hi Hj.
  destruct (nth_error password_chars j) as [x |] eqn:Ex;
    [| apply nth_error_None in Ex; unfold len in *; lia].
  destruct (nth_error password_chars i) as [y |] eqn:Ey;
    [| apply nth_error_None in Ey; unfold len in *; lia].
  exists (update (update password_chars i x) j y). split.
  - unfold swap, bind, getitem, setitem. rewrite Ex, Ey. unfold ret.
    apply Nat.ltb_lt in Hi. rewrite Hi.
    rewrite update_length. apply Nat.ltb_lt in Hj. now rewrite Hj.
  - now apply update_exchange.
Qed.

(** The loop of the shuffle never indexes out of range and rearranges the
    characters it is given. *)
Lemma shuffle_from_ok i :
  forall (password_chars : str) r,
    i < len password_chars \/ i = 0 ->
    exists l r', shuffle_from i password_chars r = inr (l, r')
                 /\ Permutation password_chars l.
Proof.
  induction i as [| i IH]; intros l r Hi.
  - exists l, r. split; [reflexivity | apply Permutation_refl].
  - destruct Hi as [Hi | Hi]; [| discriminate].
    assert (Hpos : 0 < S i + 1) by lia.
    destruct (randbelow_ok (S i + 1) r Hpos) as [Hr Hlt].
    destruct (swap_ok l (S i) (r 0 mod (S i + 1)) (advance r))
      as [l1 [Hs Hp1]]; [lia | lia |].
    destruct (IH l1 (advance r)) as [l2 [r2 [Hsh Hp2]]].
    { left. unfold len in *. rewrite <- (Permutation_length Hp1). lia. }
    exists l2, r2. split.
    + cbn [shuffle_from]. rewrite (bind_ok _ _ _ _ _ Hr).
      now rewrite (bind_ok _ _ _ _ _ Hs).
    + eapply perm_trans; eauto.
Qed.

(** ** The charset builder *)

Section BuilderFacts.

Variables lower upper digs symbols : str.
Variable ambiguous : list ascii.

(** The builder, category by category: it fails when no flag is set,
    fails when no enabled category keeps a character, and otherwise
    returns the Pools of the surviving categories in declaration order. *)
Lemma build_charset_with_eq ul uu ud us ex :
  build_charset_with lower upper digs symbols ambiguous ul uu ud us ex
  = if negb (ul || uu || ud || us) then inl NoCategorySelected
    else match surviving_pools
                 (pool_with (alphabet_of lower upper digs symbols) ambiguous ex)
                 ul uu ud us
         with
         | [] => inl AllPoolsEmptied
         | p :: ps => inr (p :: ps)
         end.
Proof.
  unfold build_charset_with, strip, surviving_pools, pool_with, survives,
    NoCategorySelected, AllPoolsEmptied.
  set (g := filter (fun ch => negb (mem ch ambiguous))). clearbody g.
  destruct ex.
  - destruct ul, uu, ud, us; cbn;
      destruct (g lower) eqn:E1, (g upper) eqn:E2, (g digs) eqn:E3,
        (g symbols) eqn:E4;
      cbn; rewrite ?E1, ?E2, ?E3, ?E4; reflexivity.
  - destruct ul, uu, ud, us; cbn;
      destruct lower, upper, digs, symbols; reflexivity.
Qed.

Lemma surviving_pools_nonempty (pool : Category -> str) ul uu ud us :
  Forall (fun p => p <> []) (surviving_pools pool ul uu ud us).
Proof.
  unfold surviving_pools. apply Forall_map, Forall_forall.
  intros c Hc. apply filter_In in Hc. destruct Hc as [_ Hc].
  unfold survives in Hc. apply andb_true_iff in Hc. destruct Hc as [_ Hc].
  destruct (pool c); [discriminate | congruence].
Qed.

Lemma build_charset_with_nonempty ul uu ud us ex parts :
  build_charset_with lower upper digs symbols ambiguous ul uu ud us ex
  = inr parts ->
  parts <> [] /\ Forall (fun p => p <> []) parts.
Proof.
  rewrite build_charset_with_eq.
  destruct (negb (ul || uu || ud || us)); [discriminate |].
  set (pool := pool_with _ ambiguous ex).
  pose proof (surviving_pools_nonempty pool ul uu ud us) as Hall.
  destruct (surviving_pools pool ul uu ud us) as [| p ps];
    [discriminate |].
  intros H. injection H as <-. split; [discriminate | exact Hall].
Qed.

End BuilderFacts.

(** ** The sampler *)

Lemma Forall2_pick_l {A B : Type} (R : A -> B -> Prop) l1 l2 a :
  Forall2 R l1 l2 -> In a l1 -> exists b, In b l2 /\ R a b.
Proof.
  induction 1 as [| x y l1 l2 Hxy _ IH]; intros Ha; [contradiction |].
  destruct Ha as [-> | Ha].
  - exists y. split; [now left | assumption].
  - destruct (IH Ha) as [b [Hb Hab]]. exists b. split; [now right | assumption].
Qed.

Lemma Forall2_pick_r {A B : Type} (R : A -> B -> Prop) l1 l2 b :
  Forall2 R l1 l2 -> In b l2 -> exists a, In a l1 /\ R a b.
Proof.
  induction 1 as [| x y l1 l2 Hxy _ IH]; intros Hb; [contradiction |].
  destruct Hb as [-> | Hb].
  - exists x. split; [now left | assumption].
  - destruct (IH Hb) as [a [Ha Hab]]. exists a. split; [now right | assumption].
Qed.

Lemma concat_nonempty {A : Type} (parts : list (list A)) :
  parts <> [] -> Forall (fun p => p <> []) parts -> concat parts <> [].
Proof.
  intros Hne Hall. destruct Hall as [| p parts Hp _]; [congruence |].
  destruct p; [congruence | discriminate].
Qed.

Lemma drawn_In {A : Type} (pool : list A) (d : A) (r : rng) n c :
  pool <> [] ->
  In c (map (fun k => nth (r k mod len pool) pool d) (seq 0 n)) ->
  In c pool.
Proof.
  intros Hne Hc. apply in_map_iff in Hc. destruct Hc as [k [<- _]].
  apply nth_In. apply Nat.mod_upper_bound.
  unfold len. destruct pool; [congruence | discriminate].
Qed.

Section SamplerFacts.

Variables lower upper digs symbols : str.
Variable ambiguous : list ascii.

Lemma generate_invalid_length length ul uu ud us ex r :
  (length <= 0)%Z ->
  generate_password_with lower upper digs symbols ambiguous
    length ul uu ud us ex r = inl InvalidLength.
Proof.
  intros H. unfold generate_password_with.
  apply Z.leb_le in H. rewrite H. reflexivity.
Qed.

Lemma generate_build_fails length ul uu ud us ex r e :
  (0 < length)%Z ->
  build_charset_with lower upper digs symbols ambiguous ul uu ud us ex = inl e ->
  generate_password_with lower upper digs symbols ambiguous
    length ul uu ud us ex r = inl e.
Proof.
  intros H Hb. unfold generate_password_with.
  apply Z.leb_gt in H. rewrite H, Hb. reflexivity.
Qed.

(** Once the length is positive and the builder has returned its Pools,
    the sampler returns, and this is what it returns. *)
Lemma generate_ok (d : ascii) length ul uu ud us ex parts r :
  (0 < length)%Z ->
  build_charset_with lower upper digs symbols ambiguous ul uu ud us ex = inr parts ->
  exists pw r',
    generate_password_with lower upper digs symbols ambiguous
    length ul uu ud us ex r = inr (pw, r')
    /\ Z.of_nat (len pw) = length
    /\ (forall c, In c pw -> In c (concat parts))
    /\ ((Z.of_nat (len parts) <= length)%Z ->
        forall p, In p parts -> exists c, In c p /\ In c pw)
    /\ ((length < Z.of_nat (len parts))%Z ->
        pw = map (fun k => nth (r k mod len (concat parts)) (concat parts) d)
                 (seq 0 (Z.to_nat length))).
Proof.
  intros Hpos Hb.
  destruct (build_charset_with_nonempty _ _ _ _ _ _ _ _ _ _ _ Hb)
    as [Hne Hall].
  pose proof (concat_nonempty parts Hne Hall) as Hpool.
  unfold generate_password_with.
  pose proof Hpos as Hpos'. apply Z.leb_gt in Hpos'. rewrite Hpos', Hb.
  cbn [lift].
  rewrite (bind_ok (ret parts) _ r parts r eq_refl).
  destruct (length <? Z.of_nat (len parts))%Z eqn:Hcase.
  - (* not enough room for one character of every Pool *)
    apply Z.ltb_lt in Hcase.
    rewrite (repeatM_choice (concat parts) d _ Hpool).
    eexists _, _. split; [reflexivity |]. repeat split.
    + unfold len. rewrite length_map, length_seq. lia.
    + intros c Hc. eapply drawn_In; eauto.
    + lia.
  - (* one character of every Pool, the filler, the shuffle *)
    apply Z.ltb_ge in Hcase.
    destruct (mapM_choice parts Hall r) as [cs [r1 [Hcs Hcov]]].
    rewrite (bind_ok _ _ _ _ _ Hcs).
    pose proof (Forall2_length Hcov) as Hlen. fold (len parts) (len cs) in Hlen.
    rewrite (bind_ok _ _ _ _ _ (repeatM_choice (concat parts) d _ Hpool r1)).
    set (fill := map _ (seq 0 _)).
    assert (Hfill : len fill = Z.to_nat (length - Z.of_nat (len cs))).
    { unfold fill, len. now rewrite length_map, length_seq. }
    assert (Hall_len : Z.of_nat (len (cs ++ fill)) = length).
    { unfold len, str in *. rewrite length_app, Hfill. lia. }
    destruct (shuffle_from_ok (len (cs ++ fill) - 1) (cs ++ fill)
                              (fun k => r1 (Z.to_nat (length - Z.of_nat (len cs)) + k)))
      as [pw [r' [Hsh Hperm]]]; [lia |].
    exists pw, r'. split; [exact Hsh |]. repeat split.
    + unfold len in *. rewrite <- (Permutation_length Hperm). exact Hall_len.
    + intros c Hc.
      apply (Permutation_in _ (Permutation_sym Hperm)) in Hc.
      apply in_app_or in Hc. destruct Hc as [Hc | Hc].
      * destruct (Forall2_pick_r _ _ _ _ Hcov Hc) as [p [Hp Hcp]].
        apply in_concat. eauto.
      * eapply drawn_In; eauto.
    + intros _ p Hp.
      destruct (Forall2_pick_l _ _ _ _ Hcov Hp) as [c [Hc Hcp]].
      exists c. split; [assumption |].
      apply (Permutation_in _ Hperm). apply in_or_app. now left.
    + lia.
Qed.

End SamplerFacts.

(** ** The program of [main.py] *)

Lemma mem_In ch s : mem ch s = true <-> In ch s.
Proof.
  unfold mem. rewrite existsb_exists. split.
  - intros [x [Hx He]]. apply Ascii.eqb_eq in He. now subst.
  - intros H. exists ch. split; [assumption | apply Ascii.eqb_refl].
Qed.

Lemma subseq_filter {A : Type} (f : A -> bool) (s : list A) :
  subseq (filter f s) s.
Proof.
  induction s as [| x s IH]; simpl; [constructor |].
  destruct (f x); now constructor.
Qed.

Lemma subseq_In {A : Type} (p s : list A) x :
  subseq p s -> In x p -> In x s.
Proof.
  induction 1 as [| y p s _ IH | y p s _ IH]; simpl; intuition.
Qed.

(** A list without repetition has one subsequence for each set of
    elements kept. *)
Lemma subseq_unique {A : Type} (p s : list A) :
  subseq p s -> NoDup s ->
  forall q, subseq q s -> (forall x, In x p <-> In x q) -> p = q.
Proof.
  induction 1 as [| y p s Hp IH | y p s Hp IH]; intros Hnd q Hq Heq.
  - inversion Hq. reflexivity.
  - inversion Hnd as [| ? ? Hy Hnd']; subst.
    inversion Hq as [| ? ? ? Hq' | ? q' ? Hq']; subst.
    + now apply IH.
    + exfalso. apply Hy. apply (subseq_In p s y Hp). apply Heq. now left.
  - inversion Hnd as [| ? ? Hy Hnd']; subst.
    inversion Hq as [| ? ? ? Hq' | ? q' ? Hq']; subst.
    + exfalso. apply Hy. apply (subseq_In q s y Hq'). apply Heq. now left.
    + f_equal. apply IH; [assumption | assumption |].
      intros x. split; intros Hx.
      * destruct (proj1 (Heq x) (or_intror Hx)) as [<- | H]; [| assumption].
        exfalso. apply Hy. exact (subseq_In p s y Hp Hx).
      * destruct (proj2 (Heq x) (or_intror Hx)) as [<- | H]; [| assumption].
        exfalso. apply Hy. exact (subseq_In q' s y Hq' Hx).
Qed.

Lemma reference_alphabet_NoDup cat : NoDup (reference_alphabet cat).
Proof.
  destruct cat; vm_compute;
    repeat (constructor;
            [ intros H; repeat (destruct H as [H | H]; [discriminate H |]);
              exact H |]);
    constructor.
Qed.

Lemma Pool_excluding cat ch :
  In ch (Pool true cat) <-> In ch (reference_alphabet cat) /\ ~ In ch AMBIGUOUS.
Proof.
  unfold Pool, pool_with. rewrite filter_In, negb_true_iff.
  rewrite <- (mem_In ch AMBIGUOUS).
  destruct (mem ch AMBIGUOUS); intuition congruence.
Qed.

(** The description of a Pool under exclusion, a subsequence of the
    reference alphabet that holds its non-ambiguous characters and no
    other, fits one string only. *)
Lemma Pool_determined cat p :
  subseq p (reference_alphabet cat) ->
  (forall ch, In ch p <-> In ch (reference_alphabet cat) /\ ~ In ch AMBIGUOUS) ->
  p = Pool true cat.
Proof.
  intros Hsub Hin.
  apply (subseq_unique p (reference_alphabet cat) Hsub
                       (reference_alphabet_NoDup cat)).
  - apply subseq_filter.
  - intros ch. rewrite Hin. symmetry. apply Pool_excluding.
Qed.

Lemma build_charset_eq ul uu ud us ex :
  build_charset ul uu ud us ex
  = if negb (ul || uu || ud || us) then inl NoCategorySelected
    else match surviving_pools (Pool ex) ul uu ud us with
         | [] => inl AllPoolsEmptied
         | p :: ps => inr (p :: ps)
         end.
Proof. apply build_charset_with_eq. Qed.

Lemma build_charset_pools ul uu ud us ex parts :
  build_charset ul uu ud us ex = inr parts ->
  parts = surviving_pools (Pool ex) ul uu ud us.
Proof.
  rewrite build_charset_eq.
  destruct (negb (ul || uu || ud || us)); [discriminate |].
  destruct (surviving_pools _ _ _ _ _); [discriminate | congruence].
Qed.

(** No reference alphabet lies wholly inside [AMBIGUOUS]. *)
Lemma Pool_never_empty ex cat : Pool ex cat <> [].
Proof. destruct ex, cat; vm_compute; discriminate. Qed.

Lemma build_charset_not_emptied ul uu ud us ex :
  build_charset ul uu ud us ex <> inl AllPoolsEmptied.
Proof. destruct ul, uu, ud, us, ex; vm_compute; discriminate. Qed.

(** Every call has one of three outcomes; which one is decided by the
    arguments alone. *)
Lemma generate_password_cases (d : ascii) length ul uu ud us ex r :
  ((length <= 0)%Z /\ generate_password length ul uu ud us ex r = inl InvalidLength)
  \/ ((0 < length)%Z /\ exists e,
         build_charset ul uu ud us ex = inl e
         /\ generate_password length ul uu ud us ex r = inl e)
  \/ ((0 < length)%Z /\ exists parts pw r',
         build_charset ul uu ud us ex = inr parts
         /\ generate_password length ul uu ud us ex r = inr (pw, r')
         /\ Z.of_nat (len pw) = length
         /\ (forall c, In c pw -> In c (concat parts))
         /\ ((Z.of_nat (len parts) <= length)%Z ->
             forall p, In p parts -> exists c, In c p /\ In c pw)
         /\ ((length < Z.of_nat (len parts))%Z ->
             pw = map (fun k => nth (r k mod len (concat parts)) (concat parts) d)
                      (seq 0 (Z.to_nat length)))).
Proof.
  destruct (Z_le_gt_dec length 0) as [Hle | Hgt].
  - left. split; [assumption |]. now apply generate_invalid_length.
  - right. assert (Hpos : (0 < length)%Z) by lia.
    destruct (build_charset ul uu ud us ex) as [e | parts] eqn:Hb.
    + left. split; [assumption |]. exists e. split; [reflexivity |].
      now apply generate_build_fails.
    + right. split; [assumption |].
      destruct (generate_ok _ _ _ _ _ d length ul uu ud us ex parts r Hpos Hb)
        as [pw [r' H]].
      exists parts, pw, r'. split; [reflexivity | exact H].
Qed.

(** What a call that returns has gone through. *)
Lemma generate_password_returned (d : ascii) length ul uu ud us ex r pw :
  run (generate_password length ul uu ud us ex) r = inr pw ->
  (0 < length)%Z /\ exists parts,
    build_charset ul uu ud us ex = inr parts
    /\ Z.of_nat (len pw) = length
    /\ (forall c, In c pw -> In c (concat parts))
    /\ ((Z.of_nat (len parts) <= length)%Z ->
        forall p, In p parts -> exists c, In c p /\ In c pw)
    /\ ((length < Z.of_nat (len parts))%Z ->
        pw = map (fun k => nth (r k mod len (concat parts)) (concat parts) d)
                 (seq 0 (Z.to_nat length))).
Proof.
  intros Hrun. apply run_inr in Hrun. destruct Hrun as [r' Hrun].
  destruct (generate_password_cases d length ul uu ud us ex r)
    as [[_ H] | [[_ [e [_ H]]] | [Hpos [parts [pw' [r'' [Hb [H Hrest]]]]]]]];
    try congruence.
  split; [assumption |]. exists parts. split; [assumption |].
  rewrite H in Hrun. injection Hrun as -> _. exact Hrest.
Qed.

Lemma in_Pool_of_parts ul uu ud us ex parts p :
  build_charset ul uu ud us ex = inr parts ->
  In p parts ->
  exists cat, enabled ul uu ud us cat = true /\ p = Pool ex cat.
Proof.
  intros Hb Hp. rewrite (build_charset_pools _ _ _ _ _ _ Hb) in Hp.
  apply in_map_iff in Hp. destruct Hp as [cat [<- Hcat]].
  apply filter_In in Hcat. destruct Hcat as [_ Hs].
  unfold survives in Hs. apply andb_true_iff in Hs.
  exists cat. tauto.
Qed.

Lemma Pool_in_parts ul uu ud us ex parts cat :
  build_charset ul uu ud us ex = inr parts ->
  enabled ul uu ud us cat = true ->
  Pool ex cat <> [] ->
  In (Pool ex cat) parts.
Proof.
  intros Hb He Hne. rewrite (build_charset_pools _ _ _ _ _ _ Hb).
  apply in_map. apply filter_In. split.
  - destruct cat; simpl; tauto.
  - unfold survives. rewrite He. destruct (Pool ex cat); [congruence | reflexivity].
Qed.

(** ** Concrete runs *)

(** [generate_password(16)] with the defaults: one character of each of
    the four categories at least. *)
Example generate_password_16 :
  run (generate_password_default 16) (fun k => 13 * k + 1)
  = inr (lit "}%bc7v1p<iVIC8_O").
Proof. vm_compute. reflexivity. Qed.

(** Three characters from four Pools: the draws are returned as they come,
    here all from the lowercase letters. *)
Example generate_password_3_of_4 :
  run (generate_password 3 true true true true false) (fun _ => 0)
  = inr (lit "aaa").
Proof. vm_compute. reflexivity. Qed.

(** The shuffle on four characters, with the draws 2, 0 and 1 for the
    indices 3, 2 and 1. *)
Example shuffle_from_abcd :
  run (shuffle_from 3 (lit "abcd"))
      (fun k => match k with 0 => 2 | 1 => 0 | _ => 1 end)
  = inr (lit "dbac").
Proof. vm_compute. reflexivity. Qed.

(** * The claims *)

(** C1 (coverage). When at least one category flag is set, the builder
    returns a non-empty list of Pools and the requested length is at least
    the number of those Pools, [generate_password] returns a password that
    holds at least one character of every returned Pool, that is of the
    Pool of every enabled category that exclusion has not emptied. *)
Theorem C1_coverage :
  forall length ul uu ud us ex parts r,
    ul || uu || ud || us = true ->
    build_charset ul uu ud us ex = inr parts ->
    parts <> [] ->
    (Z.of_nat (len parts) <= length)%Z ->
    exists pw,
      run (generate_password length ul uu ud us ex) r = inr pw
      /\ (forall p, In p parts -> exists c, In c p /\ In c pw)
      /\ (forall cat, enabled ul uu ud us cat = true -> Pool ex cat <> [] ->
                      exists c, In c (Pool ex cat) /\ In c pw).
Proof.
  intros length ul uu ud us ex parts r _ Hb Hne Hlen.
  assert (Hpos : (0 < length)%Z).
  { destruct parts; [congruence | unfold len in Hlen; simpl in Hlen; lia]. }
  destruct (generate_password_cases zero length ul uu ud us ex r)
    as [[H _] | [[_ [e [H _]]] | [_ [parts' [pw [r' [Hb' [Hg [_ [_ [Hcov _]]]]]]]]]]];
    [lia | congruence |].
  assert (parts' = parts) by congruence. subst parts'.
  exists pw. split; [apply run_inr; eauto |]. split.
  - exact (Hcov Hlen).
  - intros cat He Hp. apply (Hcov Hlen).
    eapply Pool_in_parts; eauto.
Qed.

Lemma C1_coverage_witness :
  let parts := [lit "abcdefghijkmnopqrstuvwxyz"; lit "23456789"] in
  build_charset true false true false true = inr parts
  /\ (Z.of_nat (len parts) <= 5)%Z
  /\ exists pw,
      run (generate_password 5 true false true false true)
          (fun k => 7 * k + 3) = inr pw
      /\ (forall p, In p parts -> exists c, In c p /\ In c pw)
      /\ (forall cat, enabled true false true false cat = true ->
                      Pool true cat <> [] ->
                      exists c, In c (Pool true cat) /\ In c pw).
Proof.
  intros parts. split; [reflexivity |]. split; [vm_compute; discriminate |].
  apply (C1_coverage 5 true false true false true parts (fun k => 7 * k + 3)).
  - reflexivity.
  - reflexivity.
  - discriminate.
  - vm_compute. discriminate.
Defined.

(** C2 (alphabet containment). Every character of a password that
    [generate_password] returns, whichever of its two branches produced
    it, lies in the concatenation of the Pools the builder returned, hence
    in the Pool of an enabled category; no other character appears. *)
Theorem C2_alphabet_containment :
  forall length ul uu ud us ex r pw,
    run (generate_password length ul uu ud us ex) r = inr pw ->
    exists parts,
      build_charset ul uu ud us ex = inr parts
      /\ forall c, In c pw ->
           In c (concat parts)
           /\ exists cat, enabled ul uu ud us cat = true /\ In c (Pool ex cat).
Proof.
  intros length ul uu ud us ex r pw Hrun.
  destruct (generate_password_returned zero _ _ _ _ _ _ _ _ Hrun)
    as [_ [parts [Hb [_ [Hin _]]]]].
  exists parts. split; [assumption |]. intros c Hc.
  pose proof (Hin c Hc) as Hu. split; [assumption |].
  apply in_concat in Hu. destruct Hu as [p [Hp Hcp]].
  destruct (in_Pool_of_parts _ _ _ _ _ _ _ Hb Hp) as [cat [He ->]].
  exists cat. tauto.
Qed.

Lemma C2_alphabet_containment_witness :
  run (generate_password 6 false true true true false) (fun k => 5 * k + 2)
  = inr (lit "7CRW1=")
  /\ exists parts,
      build_charset false true true true false = inr parts
      /\ forall c, In c (lit "7CRW1=") ->
           In c (concat parts)
           /\ exists cat, enabled false true true true cat = true
                          /\ In c (Pool false cat).
Proof.
  split; [vm_compute; reflexivity |].
  apply (C2_alphabet_containment 6 false true true true false
                                 (fun k => 5 * k + 2)).
  vm_compute. reflexivity.
Defined.

(** C3 (length exactness). A password that [generate_password] returns has
    exactly the requested length, in the branch that only draws from the
    union of the Pools as in the branch that covers every Pool. *)
Theorem C3_length_exact :
  forall length ul uu ud us ex r pw,
    run (generate_password length ul uu ud us ex) r = inr pw ->
    Z.of_nat (len pw) = length.
Proof.
  intros length ul uu ud us ex r pw Hrun.
  destruct (generate_password_returned zero _ _ _ _ _ _ _ _ Hrun)
    as [_ [parts [_ [Hlen _]]]].
  exact Hlen.
Qed.

Lemma C3_length_exact_witness :
  run (generate_password 12 true true true true true) (fun k => k * k + 11)
  = inr (lit "mNHo<MY?9$C6")
  /\ Z.of_nat (len (lit "mNHo<MY?9$C6")) = 12%Z.
Proof.
  split; [vm_compute; reflexivity |].
  apply (C3_length_exact 12 true true true true true (fun k => k * k + 11)).
  vm_compute. reflexivity.
Defined.

(** C4 (ambiguous exclusion). With [exclude_ambiguous] set, no character
    of a password that [generate_password] returns is a member of
    [AMBIGUOUS]. *)
Theorem C4_ambiguous_excluded :
  forall length ul uu ud us r pw,
    run (generate_password length ul uu ud us true) r = inr pw ->
    forall c, In c pw -> ~ In c AMBIGUOUS.
Proof.
  intros length ul uu ud us r pw Hrun c Hc.
  destruct (generate_password_returned zero _ _ _ _ _ _ _ _ Hrun)
    as [_ [parts [Hb [_ [Hin _]]]]].
  apply Hin, in_concat in Hc. destruct Hc as [p [Hp Hcp]].
  destruct (in_Pool_of_parts _ _ _ _ _ _ _ Hb Hp) as [cat [_ ->]].
  apply Pool_excluding in Hcp. tauto.
Qed.

Lemma C4_ambiguous_excluded_witness :
  run (generate_password 8 true true true true true) (fun k => 7 * k + 3)
  = inr (lit "G3PWdL5#")
  /\ forall c, In c (lit "G3PWdL5#") -> ~ In c AMBIGUOUS.
Proof.
  split; [vm_compute; reflexivity |].
  apply (C4_ambiguous_excluded 8 true true true true (fun k => 7 * k + 3)).
  vm_compute. reflexivity.
Defined.

(** C5 (no category selected). With the four category flags false and a
    positive length, [generate_password] raises the error of
    [build_charset], NoCategorySelected, and returns nothing: no character
    is drawn before the failure. *)
Theorem C5_no_category_selected :
  forall length ex r,
    (0 < length)%Z ->
    build_charset false false false false ex = inl NoCategorySelected
    /\ generate_password length false false false false ex r
       = inl NoCategorySelected
    /\ run (generate_password length false false false false ex) r
       = inl NoCategorySelected.
Proof.
  intros length ex r Hpos.
  assert (Hb : build_charset false false false false ex = inl NoCategorySelected)
    by (destruct ex; reflexivity).
  assert (Hg : generate_password length false false false false ex r
               = inl NoCategorySelected)
    by (apply generate_build_fails; assumption).
  repeat split; try assumption. now apply run_inl.
Qed.

Lemma C5_no_category_selected_witness :
  (0 < 10)%Z
  /\ run (generate_password 10 false false false false false) (fun k => k)
     = inl NoCategorySelected.
Proof.
  split; [reflexivity |].
  apply (C5_no_category_selected 10 false (fun k => k)). reflexivity.
Defined.

(** C6 (invalid length). [generate_password] raises InvalidLength exactly
    when the requested length is zero or negative, whatever the flags and
    the random draws. *)
Theorem C6_invalid_length :
  forall length ul uu ud us ex r,
    run (generate_password length ul uu ud us ex) r = inl InvalidLength
    <-> (length <= 0)%Z.
Proof.
  intros length ul uu ud us ex r. rewrite run_inl. split.
  - intros H.
    destruct (generate_password_cases zero length ul uu ud us ex r)
      as [[Hle _] | [[_ [e [Hb Hg]]] | [_ [parts [pw [r' [_ [Hg _]]]]]]]].
    + assumption.
    + exfalso. rewrite Hg in H. injection H as ->. revert Hb.
      rewrite build_charset_eq. destruct (negb _); [discriminate |].
      destruct (surviving_pools _ _ _ _ _); discriminate.
    + congruence.
  - apply generate_invalid_length.
Qed.

Example generate_password_zero ul uu ud us ex r :
  run (generate_password 0 ul uu ud us ex) r = inl InvalidLength.
Proof. reflexivity. Qed.

(** C7 (all Pools emptied). Whatever the reference alphabets and the
    ambiguous set: when at least one category flag is set and exclusion
    removes every character of every enabled category, the builder raises
    AllPoolsEmptied, which is not NoCategorySelected. With the alphabets
    and the ambiguous set of [main.py] no call raises it, as none of the
    four alphabets lies wholly inside [AMBIGUOUS]. *)
Theorem C7_all_pools_emptied :
  forall lower upper digs symbols ambiguous ul uu ud us,
    ul || uu || ud || us = true ->
    (forall cat, enabled ul uu ud us cat = true ->
       pool_with (alphabet_of lower upper digs symbols) ambiguous true cat = []) ->
    build_charset_with lower upper digs symbols ambiguous ul uu ud us true
    = inl AllPoolsEmptied
    /\ AllPoolsEmptied <> NoCategorySelected
    /\ (forall ul' uu' ud' us' ex',
          build_charset ul' uu' ud' us' ex' <> inl AllPoolsEmptied).
Proof.
  intros lower upper digs symbols ambiguous ul uu ud us Hsel Hempty.
  split; [| split; [discriminate | apply build_charset_not_emptied]].
  rewrite build_charset_with_eq, Hsel. cbn [negb].
  assert (Hs : forall cat,
             survives (pool_with (alphabet_of lower upper digs symbols)
                                 ambiguous true) ul uu ud us cat = false).
  { intros cat. unfold survives.
    destruct (enabled ul uu ud us cat) eqn:He; [| reflexivity].
    now rewrite (Hempty cat He). }
  unfold surviving_pools, declaration_order. cbn [filter].
  rewrite !Hs. reflexivity.
Qed.

Lemma C7_all_pools_emptied_witness :
  build_charset_with ascii_lowercase ascii_uppercase digits (lit ".,;:")
                     AMBIGUOUS false false false true true
  = inl AllPoolsEmptied
  /\ AllPoolsEmptied <> NoCategorySelected
  /\ (forall ul' uu' ud' us' ex',
        build_charset ul' uu' ud' us' ex' <> inl AllPoolsEmptied).
Proof.
  apply (C7_all_pools_emptied ascii_lowercase ascii_uppercase digits
                              (lit ".,;:") AMBIGUOUS false false false true).
  - reflexivity.
  - intros cat He. destruct cat; try discriminate He. reflexivity.
Defined.

(** C7, the existence part: in [main.py] no request with exclusion on is
    refused for emptied Pools, whichever categories it selects. *)
Lemma C7_no_request_empties_all_pools :
  ~ exists ul uu ud us,
      build_charset ul uu ud us true = inl AllPoolsEmptied.
Proof.
  intros [ul [uu [ud [us H]]]]. revert H.
  destruct ul, uu, ud, us; vm_compute; discriminate.
Qed.

(** C8 (length below the number of Pools). When the builder returns its
    Pools and the length is positive but below their number, the call
    succeeds: the password is the sequence of [length] draws from the
    concatenation of the Pools, in drawing order, its [k]-th character
    being the one at the [k]-th drawn position. Exactly [length] draws are
    made, so none is spent on a character per Pool or on a shuffle. *)
Theorem C8_insufficient_length :
  forall length ul uu ud us ex parts r,
    build_charset ul uu ud us ex = inr parts ->
    (0 < length < Z.of_nat (len parts))%Z ->
    let pool := concat parts in
    let pw := map (fun k => nth (r k mod len pool) pool zero)
                  (seq 0 (Z.to_nat length)) in
    generate_password length ul uu ud us ex r
    = inr (pw, fun k => r (Z.to_nat length + k))
    /\ run (generate_password length ul uu ud us ex) r = inr pw
    /\ Z.of_nat (len pw) = length
    /\ (forall c, In c pw -> In c pool).
Proof.
  intros length ul uu ud us ex parts r Hb [Hpos Hlt] pool pw.
  destruct (build_charset_with_nonempty _ _ _ _ _ _ _ _ _ _ _ Hb)
    as [Hne Hall].
  pose proof (concat_nonempty parts Hne Hall) as Hpool.
  assert (Hg : generate_password length ul uu ud us ex r
               = inr (pw, fun k => r (Z.to_nat length + k))).
  { unfold generate_password, generate_password_with.
    fold build_charset. rewrite Hb.
    apply Z.leb_gt in Hpos. rewrite Hpos. cbn [lift].
    rewrite (bind_ok (ret parts) _ r parts r eq_refl).
    apply Z.ltb_lt in Hlt. rewrite Hlt.
    apply (repeatM_choice (concat parts) zero _ Hpool). }
  split; [exact Hg |]. split; [apply run_inr; eauto |]. split.
  - unfold pw, len. rewrite length_map, length_seq. lia.
  - intros c Hc. eapply drawn_In; eauto.
Qed.

Lemma C8_insufficient_length_witness :
  let pool := ascii_lowercase ++ ascii_uppercase ++ digits ++ SYMBOLS in
  (0 < 3 < Z.of_nat (len [ascii_lowercase; ascii_uppercase; digits; SYMBOLS]))%Z
  /\ run (generate_password 3 true true true true false) (fun k => 31 * k + 5)
     = inr (lit "fK^")
  /\ forall c, In c (lit "fK^") -> In c pool.
Proof.
  intros pool. split; [vm_compute; split; reflexivity |].
  destruct (C8_insufficient_length
              3 true true true true false
              [ascii_lowercase; ascii_uppercase; digits; SYMBOLS]
              (fun k => 31 * k + 5))
    as [_ [Hrun [_ Hin]]].
  - reflexivity.
  - vm_compute. split; reflexivity.
  - split; [exact Hrun | exact Hin].
Defined.

(** C9 (the builder's result). When [build_charset] succeeds, the Pools it
    returns are those of the categories that are enabled and not emptied,
    one Pool per such category, in the declaration order lowercase,
    uppercase, digits, symbols. With exclusion on, the Pool of a category
    is its reference alphabet without the ambiguous characters, the others
    in their order; with exclusion off it is the reference alphabet. *)
Theorem C9_build_charset_pools :
  forall ul uu ud us ex parts,
    build_charset ul uu ud us ex = inr parts ->
    exists cats,
      parts = map (Pool ex) cats
      /\ subseq cats declaration_order
      /\ (forall cat, In cat cats <->
                      enabled ul uu ud us cat = true /\ Pool ex cat <> [])
      /\ (forall cat,
            if ex
            then subseq (Pool ex cat) (reference_alphabet cat)
                 /\ forall ch, In ch (Pool ex cat) <->
                               In ch (reference_alphabet cat)
                               /\ ~ In ch AMBIGUOUS
            else Pool ex cat = reference_alphabet cat).
Proof.
  intros ul uu ud us ex parts Hb.
  exists (filter (survives (Pool ex) ul uu ud us) declaration_order).
  split; [now apply build_charset_pools |].
  split; [apply subseq_filter |]. split.
  - intros cat. rewrite filter_In. unfold survives.
    rewrite andb_true_iff. split.
    + intros [_ [He Ht]]. split; [assumption |].
      destruct (Pool ex cat); [discriminate | congruence].
    + intros [He Hp]. split; [destruct cat; simpl; tauto |].
      split; [assumption |]. destruct (Pool ex cat); [congruence | reflexivity].
  - intros cat. destruct ex.
    + split; [apply subseq_filter | apply Pool_excluding].
    + reflexivity.
Qed.

Lemma C9_build_charset_pools_witness :
  let parts := [lit "abcdefghijkmnopqrstuvwxyz"; lit "23456789"] in
  build_charset true false true false true = inr parts
  /\ exists cats,
      parts = map (Pool true) cats
      /\ subseq cats declaration_order
      /\ (forall cat, In cat cats <->
                      enabled true false true false cat = true
                      /\ Pool true cat <> [])
      /\ (forall cat,
            subseq (Pool true cat) (reference_alphabet cat)
            /\ forall ch, In ch (Pool true cat) <->
                          In ch (reference_alphabet cat)
                          /\ ~ In ch AMBIGUOUS).
Proof.
  intros parts. split; [reflexivity |].
  apply (C9_build_charset_pools true false true false true parts).
  reflexivity.
Defined.

(** C10 (length is validated first). With a length that is zero or
    negative, [generate_password] raises InvalidLength even when the four
    category flags are false: the builder, which would raise
    NoCategorySelected for these flags, is not reached. *)
Theorem C10_length_checked_first :
  forall length ex r,
    (length <= 0)%Z ->
    run (generate_password length false false false false ex) r
    = inl InvalidLength
    /\ run (generate_password length false false false false ex) r
       <> inl NoCategorySelected
    /\ build_charset false false false false ex = inl NoCategorySelected.
Proof.
  intros length ex r Hle.
  assert (H : run (generate_password length false false false false ex) r
              = inl InvalidLength).
  { apply run_inl. now apply generate_invalid_length. }
  split; [exact H |]. split.
  - rewrite H. discriminate.
  - destruct ex; reflexivity.
Qed.

Lemma C10_length_checked_first_witness :
  (0 <= 0)%Z
  /\ run (generate_password 0 false false false false false) (fun k => k)
     = inl InvalidLength
  /\ run (generate_password 0 false false false false false) (fun k => k)
     <> inl NoCategorySelected
  /\ build_charset false false false false false = inl NoCategorySelected.
Proof.
  split; [vm_compute; discriminate |].
  apply (C10_length_checked_first 0 false (fun k => k)).
  vm_compute. discriminate.
Defined.

(** * Further properties of the sampler *)

(** ** The shuffle reaches every arrangement *)

Lemma nth_error_update_eq {A : Type} (l : list A) i x :
  i < len l -> nth_error (update l i x) i = Some x.
Proof.
  unfold len. revert i.
  induction l as [| a l IH]; intros [| i] Hi; simpl in *; try lia.
  - reflexivity.
  - apply IH. lia.
Qed.

Lemma nth_error_update_neq {A : Type} (l : list A) i k x :
  i <> k -> nth_error (update l i x) k = nth_error l k.
Proof.
  revert i k.
  induction l as [| a l IH]; intros [| i] [| k] Hik; simpl; try reflexivity.
  - congruence.
  - apply IH. congruence.
Qed.

Lemma update_app_l {A : Type} (p s : list A) i x :
  i < len p -> update (p ++ s) i x = update p i x ++ s.
Proof.
  unfold len. revert i.
  induction p as [| a p IH]; intros [| i] Hi; simpl in *; try lia.
  - reflexivity.
  - rewrite IH by lia. reflexivity.
Qed.

Lemma swap_app_l (p s : str) i j r :
  i < len p -> j < len p ->
  swap (p ++ s) i j r
  = match swap p i j r with
    | inl e => inl e
    | inr (p', r') => inr (p' ++ s, r')
    end.
Proof.
  intros Hi Hj. unfold swap, bind, getitem, setitem, ret.
  unfold len in *.
  rewrite !nth_error_app1 by assumption.
  destruct (nth_error p j) as [x |] eqn:Ex;
    [| apply nth_error_None in Ex; lia].
  destruct (nth_error p i) as [y |] eqn:Ey;
    [| apply nth_error_None in Ey; lia].
  assert (Hi' : (i <? len (p ++ s)) = true).
  { apply Nat.ltb_lt. unfold len. rewrite length_app. lia. }
  assert (Hi'' : (i <? len p) = true) by (apply Nat.ltb_lt; exact Hi).
  unfold len in *. rewrite Hi', Hi''.
  rewrite update_app_l by exact Hi.
  pose proof (update_length p i x) as Hlen. unfold len in Hlen.
  assert (Hj' : (j <? List.length (update p i x ++ s)) = true).
  { apply Nat.ltb_lt. rewrite length_app, Hlen. lia. }
  assert (Hj'' : (j <? List.length (update p i x)) = true).
  { apply Nat.ltb_lt. rewrite Hlen. exact Hj. }
  rewrite Hj', Hj''.
  rewrite update_app_l by (unfold len; rewrite Hlen; exact Hj).
  reflexivity.
Qed.

(** The loop started at [i] leaves what lies after position [i] alone. *)
Lemma shuffle_from_app_l i :
  forall (p s : str) r,
    i < len p ->
    shuffle_from i (p ++ s) r
    = match shuffle_from i p r with
      | inl e => inl e
      | inr (p', r') => inr (p' ++ s, r')
      end.
Proof.
  induction i as [| i IH]; intros p s r Hi.
  - reflexivity.
  - assert (Hpos : 0 < S i + 1) by lia.
    destruct (randbelow_ok (S i + 1) r Hpos) as [Hr Hlt].
    destruct (swap_ok p (S i) (r 0 mod (S i + 1)) (advance r))
      as [p1 [Hs Hp1]]; [lia | lia |].
    cbn [shuffle_from]. rewrite !(bind_ok _ _ _ _ _ Hr).
    unfold bind at 1.
    rewrite swap_app_l by lia. rewrite Hs.
    rewrite (bind_ok _ _ _ _ _ Hs).
    apply IH. unfold len in *. rewrite <- (Permutation_length Hp1). lia.
Qed.

Lemma split_last {A : Type} (l : list A) n x :
  len l = S n -> nth_error l n = Some x -> l = firstn n l ++ [x].
Proof.
  unfold len. revert n.
  induction l as [| a l IH]; intros [| n] Hlen Hn; simpl in *; try lia.
  - destruct l; [| simpl in Hlen; lia]. congruence.
  - f_equal. apply IH; [lia | assumption].
Qed.

Lemma shuffle_from_reaches n :
  forall (p p' : str) (r' : rng),
    len p = S n -> Permutation p p' ->
    exists r, shuffle_from n p r = inr (p', r').
Proof.
  induction n as [| n IH]; intros p p' r' Hlen Hperm.
  - exists r'. cbn [shuffle_from]. unfold ret.
    destruct p as [| a [| b p]]; unfold len in Hlen; simpl in Hlen; try lia.
    apply Permutation_length_1_inv in Hperm. now subst.
  - assert (Hlen' : len p' = S (S n)).
    { unfold len in *. now rewrite <- (Permutation_length Hperm). }
    destruct (nth_error p' (S n)) as [x |] eqn:Hx;
      [| apply nth_error_None in Hx; unfold len in *; lia].
    pose proof (split_last p' (S n) x Hlen' Hx) as Hp'.
    assert (Hin : In x p).
    { apply (Permutation_in _ (Permutation_sym Hperm)).
      eapply nth_error_In; eauto. }
    destruct (In_nth_error _ _ Hin) as [j Hj].
    assert (Hjlt : j < len p) by (apply nth_error_Some; congruence).
    destruct (nth_error p (S n)) as [y |] eqn:Hy;
      [| apply nth_error_None in Hy; unfold len in *; lia].
    set (p1 := update (update p (S n) x) j y).
    assert (Hperm1 : Permutation p p1) by now apply update_exchange.
    assert (Hlen1 : len p1 = S (S n)).
    { unfold len in *. now rewrite <- (Permutation_length Hperm1). }
    assert (Hx1 : nth_error p1 (S n) = Some x).
    { unfold p1. destruct (Nat.eq_dec j (S n)) as [-> | Hne].
      - rewrite nth_error_update_eq by (rewrite update_length; lia).
        congruence.
      - rewrite nth_error_update_neq by assumption.
        apply nth_error_update_eq. lia. }
    pose proof (split_last p1 (S n) x Hlen1 Hx1) as Hp1.
    assert (Hprefix : Permutation (firstn (S n) p1) (firstn (S n) p')).
    { apply (Permutation_app_inv_r [x]). rewrite <- Hp1, <- Hp'.
      eapply perm_trans; [apply Permutation_sym, Hperm1 | exact Hperm]. }
    assert (Hlenq : len (firstn (S n) p1) = S n).
    { unfold len in *. rewrite length_firstn. lia. }
    destruct (IH _ _ r' Hlenq Hprefix) as [r Hr].
    exists (scons j r).
    assert (Hpos : 0 < S n + 1) by lia.
    destruct (randbelow_ok (S n + 1) (scons j r) Hpos) as [Hrb _].
    cbn [shuffle_from]. rewrite (bind_ok _ _ _ _ _ Hrb).
    assert (Hdraw : scons j r 0 mod (S n + 1) = j).
    { cbn [scons]. apply Nat.mod_small. lia. }
    rewrite Hdraw.
    assert (Hswap : swap p (S n) j (advance (scons j r)) = inr (p1, r)).
    { unfold swap, bind, getitem, setitem. rewrite Hj, Hy. unfold ret.
      assert (H1 : (S n <? len p) = true) by (apply Nat.ltb_lt; lia).
      rewrite H1.
      assert (H2 : (j <? len (update p (S n) x)) = true).
      { apply Nat.ltb_lt. rewrite update_length. lia. }
      rewrite H2. reflexivity. }
    rewrite (bind_ok _ _ _ _ _ Hswap).
    rewrite Hp1, Hp'.
    rewrite shuffle_from_app_l by lia. rewrite Hr. reflexivity.
Qed.

Lemma bind_inr {A B : Type} (m : M A) (k : A -> M B) r b r' :
  bind m k r = inr (b, r') ->
  exists a r1, m r = inr (a, r1) /\ k a r1 = inr (b, r').
Proof.
  unfold bind. destruct (m r) as [e | [a r1]]; [discriminate |]. eauto.
Qed.

Lemma swap_entropy (password_chars : str) i j r l r' :
  swap password_chars i j r = inr (l, r') -> r' = r.
Proof.
  unfold swap, bind, getitem, setitem, ret, raise.
  destruct (nth_error password_chars j); [| discriminate].
  destruct (nth_error password_chars i); [| discriminate].
  destruct (i <? len password_chars); [| discriminate].
  destruct (j <? len _); [| discriminate].
  intros H. injection H as _ <-. reflexivity.
Qed.

(** The loop started at [i] makes [i] draws. *)
Lemma shuffle_from_entropy i :
  forall (password_chars : str) r l r',
    shuffle_from i password_chars r = inr (l, r') ->
    forall k, r' k = r (i + k).
Proof.
  induction i as [| i IH]; intros l0 r l r' H k.
  - cbn in H. unfold ret in H. injection H as _ <-. reflexivity.
  - cbn [shuffle_from] in H.
    apply bind_inr in H. destruct H as [j [r1 [Hj H]]].
    apply bind_inr in H. destruct H as [l1 [r2 [Hs H]]].
    apply swap_entropy in Hs. subst r2.
    assert (Hr1 : r1 = advance r).
    { destruct (randbelow_ok (S i + 1) r) as [Hrb _]; [lia |]. congruence. }
    subst r1. rewrite (IH _ _ _ _ H k). reflexivity.
Qed.

(** X1. The shuffle of [generate_password], run over the whole list: it
    never indexes out of range, returns a rearrangement of the characters
    it is given, and makes one draw per position but the first. *)
Theorem shuffle_rearranges :
  forall (password_chars : str) r,
    exists l r',
      shuffle_from (len password_chars - 1) password_chars r = inr (l, r')
      /\ Permutation password_chars l
      /\ forall k, r' k = r (len password_chars - 1 + k).
Proof.
  intros l0 r.
  destruct (shuffle_from_ok (len l0 - 1) l0 r) as [l [r' [H Hp]]]; [lia |].
  exists l, r'. split; [assumption |]. split; [assumption |].
  eapply shuffle_from_entropy; eauto.
Qed.

(** X2. Every arrangement of the characters is an outcome of the shuffle:
    for each one there are draws that produce it. *)
Theorem shuffle_reaches_every_arrangement :
  forall (password_chars target : str),
    Permutation password_chars target ->
    exists r,
      run (shuffle_from (len password_chars - 1) password_chars) r
      = inr target.
Proof.
  intros l target Hperm.
  destruct l as [| a l].
  - apply Permutation_nil in Hperm. subst. exists (fun _ => 0). reflexivity.
  - destruct (shuffle_from_reaches (len (a :: l) - 1) (a :: l) target
                                   (fun _ => 0)) as [r Hr];
      [unfold len; simpl; lia | assumption |].
    exists r. apply run_inr. eauto.
Qed.

Lemma shuffle_reaches_every_arrangement_witness :
  Permutation (lit "abc") (lit "cab")
  /\ exists r, run (shuffle_from (len (lit "abc") - 1) (lit "abc")) r
               = inr (lit "cab").
Proof.
  assert (H : Permutation (lit "abc") (lit "cab")).
  { apply (Permutation_cons_app (lit "c") (lit "b")). apply perm_swap. }
  split; [exact H |].
  exact (shuffle_reaches_every_arrangement (lit "abc") (lit "cab") H).
Defined.

(** ** Every eligible password is an outcome *)

Lemma choice_reaches {A : Type} (seq : list A) c (r' : rng) :
  In c seq -> exists r, choice seq r = inr (c, r').
Proof.
  intros Hc. destruct (In_nth_error _ _ Hc) as [n Hn].
  assert (Hlt : n < len seq) by (apply nth_error_Some; congruence).
  exists (scons n r').
  destruct (choice_ok seq (scons n r')) as [c' [Hr Hc']].
  { intros ->. simpl in Hc. contradiction. }
  cbn [scons] in Hc'. rewrite Nat.mod_small in Hc' by assumption.
  rewrite Hr. replace c' with c by congruence. reflexivity.
Qed.

Lemma mapM_choice_reaches {A : Type} (parts : list (list A)) cs :
  Forall2 (fun p c => In c p) parts cs ->
  forall r' : rng, exists r, mapM choice parts r = inr (cs, r').
Proof.
  induction 1 as [| p c parts cs Hc _ IH]; intros r'.
  - exists r'. reflexivity.
  - destruct (IH r') as [r1 H1].
    destruct (choice_reaches p c r1 Hc) as [r H0].
    exists r. cbn [mapM]. rewrite (bind_ok _ _ _ _ _ H0).
    now rewrite (bind_ok _ _ _ _ _ H1).
Qed.

Lemma repeatM_choice_reaches {A : Type} (pool l : list A) :
  (forall c, In c l -> In c pool) ->
  forall r' : rng, exists r, repeatM (len l) (choice pool) r = inr (l, r').
Proof.
  induction l as [| c l IH]; intros Hin r'.
  - exists r'. reflexivity.
  - destruct (IH (fun x Hx => Hin x (or_intror Hx)) r') as [r1 H1].
    destruct (choice_reaches pool c r1 (Hin c (or_introl eq_refl)))
      as [r H0].
    exists r. unfold len. cbn [List.length repeatM].
    rewrite (bind_ok _ _ _ _ _ H0).
    unfold len in H1. now rewrite (bind_ok _ _ _ _ _ H1).
Qed.

Lemma NoDup_incl_rest {A : Type} (cs : list A) :
  NoDup cs ->
  forall l, incl cs l -> exists rest, Permutation (cs ++ rest) l.
Proof.
  induction 1 as [| c cs Hc _ IH]; intros l Hincl.
  - exists l. apply Permutation_refl.
  - destruct (in_split c l (Hincl c (or_introl eq_refl))) as [l1 [l2 ->]].
    destruct (IH (l1 ++ l2)) as [rest Hrest].
    { intros x Hx. pose proof (Hincl x (or_intror Hx)) as Hxl.
      apply in_app_or in Hxl. apply in_or_app.
      destruct Hxl as [Hxl | [-> | Hxl]]; [now left | contradiction | now right]. }
    exists rest. simpl. now apply Permutation_cons_app.
Qed.

Lemma Pool_in_alphabet ex cat ch :
  In ch (Pool ex cat) -> In ch (reference_alphabet cat).
Proof.
  destruct ex; [| trivial]. intros H. apply Pool_excluding in H. tauto.
Qed.

(** The four reference alphabets share no character. *)
Lemma reference_alphabet_disjoint c1 c2 ch :
  In ch (reference_alphabet c1) -> In ch (reference_alphabet c2) -> c1 = c2.
Proof.
  intros H1 H2.
  assert (Hd : c1 <> c2 ->
               forallb (fun x => negb (mem x (reference_alphabet c2)))
                       (reference_alphabet c1) = true)
    by (destruct c1, c2; intros Hne; try congruence; vm_compute; reflexivity).
  destruct c1, c2; try reflexivity; exfalso;
    (assert (Hne : forallb _ _ = true) by (apply Hd; discriminate));
    rewrite forallb_forall in Hne; specialize (Hne ch H1);
    apply negb_true_iff in Hne; apply mem_In in H2; congruence.
Qed.

Lemma pick_representatives ex (pw : str) cats :
  NoDup cats ->
  (forall cat, In cat cats -> exists c, In c (Pool ex cat) /\ In c pw) ->
  exists cs,
    Forall2 (fun cat c => In c (Pool ex cat)) cats cs
    /\ NoDup cs /\ incl cs pw.
Proof.
  induction 1 as [| cat cats Hcat _ IH]; intros Hcov.
  - exists []. repeat split; [constructor | constructor | intros x []].
  - destruct (Hcov cat (or_introl eq_refl)) as [c [Hc Hpw]].
    destruct IH as [cs [Hall [Hnd Hincl]]].
    { intros cat' Hcat'. apply Hcov. now right. }
    exists (c :: cs). split; [now constructor |]. split.
    + constructor; [| assumption]. intros Hin.
      destruct (Forall2_pick_r _ _ _ _ Hall Hin) as [cat' [Hcat' Hc']].
      pose proof (reference_alphabet_disjoint cat cat' c
                    (Pool_in_alphabet _ _ _ Hc) (Pool_in_alphabet _ _ _ Hc')).
      congruence.
    + intros x [<- | Hx]; [assumption | now apply Hincl].
Qed.

Lemma Forall2_map_pools {A B C : Type} (f : A -> B) (R : B -> C -> Prop) l cs :
  Forall2 (fun a c => R (f a) c) l cs -> Forall2 R (map f l) cs.
Proof. induction 1; simpl; now constructor. Qed.

(** X3. The guarantees of [generate_password] leave no password out: a
    string of the requested positive length over the concatenated Pools,
    holding a character of every Pool when the length allows one each, is
    returned for some draws. *)
Theorem generate_password_complete :
  forall length ul uu ud us ex parts (pw : str),
    build_charset ul uu ud us ex = inr parts ->
    (0 < length)%Z ->
    Z.of_nat (len pw) = length ->
    (forall c, In c pw -> In c (concat parts)) ->
    ((Z.of_nat (len parts) <= length)%Z ->
     forall p, In p parts -> exists c, In c p /\ In c pw) ->
    exists r, run (generate_password length ul uu ud us ex) r = inr pw.
Proof.
  intros length ul uu ud us ex parts pw Hb Hpos Hlen Hin Hcov.
  assert (Hgen : forall r,
             generate_password length ul uu ud us ex r
             = (let pool := concat parts in
                if (length <? Z.of_nat (len parts))%Z then
                  repeatM (Z.to_nat length) (choice pool)
                else
                  bind (mapM choice parts) (fun password_chars =>
                  let remaining := (length - Z.of_nat (len password_chars))%Z in
                  bind (repeatM (Z.to_nat remaining) (choice pool)) (fun fill =>
                  let password_chars := password_chars ++ fill in
                  shuffle_from (len password_chars - 1) password_chars))) r).
  { intros r. unfold generate_password, generate_password_with.
    fold build_charset. rewrite Hb.
    pose proof Hpos as Hpos'. apply Z.leb_gt in Hpos'. rewrite Hpos'.
    reflexivity. }
  cbv zeta in Hgen.
  destruct (length <? Z.of_nat (len parts))%Z eqn:Hcase.
  - (* the password is the sequence of draws *)
    destruct (repeatM_choice_reaches (concat parts) pw Hin (fun _ => 0))
      as [r Hr].
    exists r. apply run_inr. exists (fun _ => 0).
    rewrite Hgen. replace (Z.to_nat length) with (len pw) by lia. exact Hr.
  - (* one character of the password for every Pool, the rest as filler *)
    apply Z.ltb_ge in Hcase. specialize (Hcov Hcase).
    pose proof (build_charset_pools _ _ _ _ _ _ Hb) as Hparts.
    unfold surviving_pools in Hparts.
    set (cats := filter (survives (Pool ex) ul uu ud us) declaration_order)
      in Hparts.
    assert (Hnd : NoDup cats).
    { apply NoDup_filter. unfold declaration_order.
      repeat constructor; simpl; intuition discriminate. }
    destruct (pick_representatives ex pw cats Hnd) as [cs [Hall [Hcs Hincl]]].
    { intros cat Hcat. apply Hcov. rewrite Hparts. now apply in_map. }
    apply (Forall2_map_pools (Pool ex) (fun p c => In c p)) in Hall.
    rewrite <- Hparts in Hall.
    destruct (NoDup_incl_rest cs Hcs pw Hincl) as [fill Hperm].
    pose proof (Forall2_length Hall) as Hlcs.
    assert (Hlfill : len fill = Z.to_nat (length - Z.of_nat (len cs))).
    { pose proof (Permutation_length Hperm) as Hl.
      unfold len, str in *. rewrite length_app in Hl. lia. }
    assert (Hne : len (cs ++ fill) = S (len (cs ++ fill) - 1)).
    { pose proof (Permutation_length Hperm) as Hl. unfold len, str in *. lia. }
    destruct (shuffle_from_reaches _ _ pw (fun _ => 0) Hne Hperm) as [r3 H3].
    destruct (repeatM_choice_reaches (concat parts) fill) with (r' := r3)
      as [r2 H2].
    { intros c Hc. apply Hin. apply (Permutation_in _ Hperm).
      apply in_or_app. now right. }
    destruct (mapM_choice_reaches parts cs Hall r2) as [r1 H1].
    exists r1. apply run_inr. exists (fun _ => 0).
    rewrite Hgen, (bind_ok _ _ _ _ _ H1).
    rewrite <- Hlfill, (bind_ok _ _ _ _ _ H2). exact H3.
Qed.

Lemma generate_password_complete_witness :
  let parts := [lit "abcdefghijkmnopqrstuvwxyz"; lit "23456789"] in
  build_charset true false true false true = inr parts
  /\ exists r,
      run (generate_password 4 true false true false true) r
      = inr (lit "pa55").
Proof.
  intros parts. split; [reflexivity |].
  apply (generate_password_complete 4 true false true false true parts).
  - reflexivity.
  - reflexivity.
  - reflexivity.
  - intros c Hc. simpl in Hc.
    repeat (destruct Hc as [<- | Hc]; [vm_compute; tauto |]). contradiction.
  - intros _ p Hp. simpl in Hp. destruct Hp as [<- | [<- | []]].
    + exists "p"%char. split; vm_compute; tauto.
    + exists "5"%char. split; vm_compute; tauto.
Defined.

(** ** What the builder and the sampler do for each request *)

Lemma build_charset_flags ul uu ud us ex :
  build_charset ul uu ud us ex
  = if ul || uu || ud || us
    then inr (surviving_pools (Pool ex) ul uu ud us)
    else inl NoCategorySelected.
Proof.
  rewrite build_charset_eq.
  destruct (ul || uu || ud || us) eqn:Hany; cbn [negb]; [| reflexivity].
  destruct (surviving_pools (Pool ex) ul uu ud us) eqn:E; [| reflexivity].
  exfalso. apply (build_charset_not_emptied ul uu ud us ex).
  now rewrite build_charset_eq, Hany, E.
Qed.

Lemma survives_enabled ul uu ud us ex cat :
  survives (Pool ex) ul uu ud us cat = enabled ul uu ud us cat.
Proof.
  unfold survives. pose proof (Pool_never_empty ex cat) as Hne.
  destruct (Pool ex cat); [congruence |]. apply andb_true_r.
Qed.

Lemma build_charset_len ul uu ud us ex parts :
  build_charset ul uu ud us ex = inr parts ->
  len parts = Nat.b2n ul + Nat.b2n uu + Nat.b2n ud + Nat.b2n us.
Proof.
  intros H. rewrite (build_charset_pools _ _ _ _ _ _ H).
  unfold surviving_pools, len. rewrite length_map.
  rewrite (filter_ext _ _ (survives_enabled ul uu ud us ex)).
  destruct ul, uu, ud, us; reflexivity.
Qed.

(** X4. No category is ever dropped: [build_charset] fails only when no
    flag is set, and otherwise returns the Pool of every category whose
    flag is set, one Pool per flag. *)
Theorem build_charset_one_pool_per_flag :
  forall ul uu ud us ex,
    build_charset ul uu ud us ex
    = (if ul || uu || ud || us
       then inr (map (Pool ex)
                     (filter (enabled ul uu ud us) declaration_order))
       else inl NoCategorySelected)
    /\ forall parts,
        build_charset ul uu ud us ex = inr parts ->
        len parts = Nat.b2n ul + Nat.b2n uu + Nat.b2n ud + Nat.b2n us.
Proof.
  intros ul uu ud us ex. split.
  - destruct ul, uu, ud, us, ex; vm_compute; reflexivity.
  - intros parts.
    destruct ul, uu, ud, us, ex; vm_compute;
      intros H; try discriminate H; injection H as <-; reflexivity.
Qed.

(** X5. The outcome of a call is decided by its arguments: InvalidLength
    for a length that is not positive, NoCategorySelected for a positive
    length with no flag set, a password otherwise. No call ends in an
    IndexError, in AllPoolsEmptied or in the error of [randbelow]. *)
Theorem generate_password_outcome :
  forall length ul uu ud us ex r,
    ((length <= 0)%Z
     /\ run (generate_password length ul uu ud us ex) r = inl InvalidLength)
    \/ ((0 < length)%Z /\ ul || uu || ud || us = false
        /\ run (generate_password length ul uu ud us ex) r
           = inl NoCategorySelected)
    \/ ((0 < length)%Z /\ ul || uu || ud || us = true
        /\ exists pw,
            run (generate_password length ul uu ud us ex) r = inr pw).
Proof.
  intros length ul uu ud us ex r.
  destruct (generate_password_cases zero length ul uu ud us ex r)
    as [[Hle H] | [[Hpos [e [Hb H]]] | [Hpos [parts [pw [r' [Hb [H _]]]]]]]].
  - left. split; [assumption | now apply run_inl].
  - right. left. split; [assumption |].
    rewrite build_charset_flags in Hb.
    destruct (ul || uu || ud || us); [discriminate |].
    split; [reflexivity |]. apply run_inl. congruence.
  - right. right. split; [assumption |]. split.
    + rewrite build_charset_eq in Hb.
      destruct (ul || uu || ud || us); [reflexivity | discriminate].
    + exists pw. apply run_inr. eauto.
Qed.

(** X6. Whether a call fails, and with which error, does not depend on
    the random draws. *)
Theorem generate_password_failure_is_deterministic :
  forall length ul uu ud us ex r1 r2 e,
    run (generate_password length ul uu ud us ex) r1 = inl e ->
    run (generate_password length ul uu ud us ex) r2 = inl e.
Proof.
  intros length ul uu ud us ex r1 r2 e H1.
  apply run_inl in H1. apply run_inl.
  destruct (generate_password_cases zero length ul uu ud us ex r1)
    as [[Hle E1] | [[Hpos [e' [Hb E1]]] | [_ [parts [pw [r' [_ [E1 _]]]]]]]].
  - rewrite E1 in H1. injection H1 as <-.
    now apply generate_invalid_length.
  - rewrite E1 in H1. injection H1 as <-.
    now apply generate_build_fails.
  - congruence.
Qed.

Lemma generate_password_failure_is_deterministic_witness :
  run (generate_password 12 false false false false true) (fun k => k)
  = inl NoCategorySelected
  /\ run (generate_password 12 false false false false true)
         (fun k => 5 * k + 2)
     = inl NoCategorySelected.
Proof.
  split; [reflexivity |].
  apply (generate_password_failure_is_deterministic
           12 false false false false true (fun k => k)).
  reflexivity.
Defined.

(** X7. A length that is at least the number of flags set, in particular
    any length from four on, always gives a password with a character of
    the Pool of every category whose flag is set. *)
Theorem coverage_from_length :
  forall length ul uu ud us ex r,
    ul || uu || ud || us = true ->
    (Z.of_nat (Nat.b2n ul + Nat.b2n uu + Nat.b2n ud + Nat.b2n us)
     <= length)%Z ->
    exists pw,
      run (generate_password length ul uu ud us ex) r = inr pw
      /\ forall cat, enabled ul uu ud us cat = true ->
                     exists c, In c (Pool ex cat) /\ In c pw.
Proof.
  intros length ul uu ud us ex r Hany Hlen.
  assert (Hpos : (0 < length)%Z) by (destruct ul, uu, ud, us; simpl in *; lia).
  destruct (generate_password_cases zero length ul uu ud us ex r)
    as [[Hle _] | [[_ [e [Hb _]]] | [_ [parts [pw [r' [Hb [H [_ [_ [Hcov _]]]]]]]]]]].
  - lia.
  - exfalso. rewrite build_charset_flags, Hany in Hb. discriminate.
  - rewrite <- (build_charset_len _ _ _ _ _ _ Hb) in Hlen.
    exists pw. split; [apply run_inr; eauto |].
    intros cat He. apply (Hcov Hlen).
    eapply Pool_in_parts; eauto. apply Pool_never_empty.
Qed.

Lemma coverage_from_length_witness :
  exists pw,
    run (generate_password 4 true true true true true) (fun k => 3 * k + 1)
    = inr pw
    /\ forall cat, enabled true true true true cat = true ->
                   exists c, In c (Pool true cat) /\ In c pw.
Proof.
  apply (coverage_from_length 4 true true true true true (fun k => 3 * k + 1)).
  - reflexivity.
  - vm_compute. discriminate.
Defined.

(** ** The number of draws *)

Lemma choice_entropy {A : Type} (seq : list A) r c r' :
  choice seq r = inr (c, r') -> r' = advance r.
Proof.
  intros H. destruct seq as [| a seq']; [discriminate |].
  destruct (choice_ok (a :: seq') r) as [c' [H' _]]; [discriminate |].
  congruence.
Qed.

Lemma mapM_choice_entropy {A : Type} (parts : list (list A)) :
  forall r cs r',
    mapM choice parts r = inr (cs, r') ->
    forall k, r' k = r (len parts + k).
Proof.
  induction parts as [| p parts IH]; intros r cs r' H k.
  - cbn in H. unfold ret in H. injection H as _ <-. reflexivity.
  - cbn [mapM] in H.
    apply bind_inr in H. destruct H as [c [r1 [Hc H]]].
    apply bind_inr in H. destruct H as [cs' [r2 [Hcs H]]].
    unfold ret in H. injection H as _ <-.
    apply choice_entropy in Hc. subst r1.
    rewrite (IH _ _ _ Hcs k). reflexivity.
Qed.

(** X8. A call that returns has made exactly [length] draws when the
    length is below the number of Pools, and [2 * length - 1] draws
    otherwise: one per Pool, one per filler character and one per step of
    the shuffle. *)
Theorem generate_password_draws :
  forall length ul uu ud us ex parts r pw r',
    build_charset ul uu ud us ex = inr parts ->
    generate_password length ul uu ud us ex r = inr (pw, r') ->
    forall k,
      r' k = r (Z.to_nat (if (length <? Z.of_nat (len parts))%Z
                          then length else 2 * length - 1) + k).
Proof.
  intros length ul uu ud us ex parts r pw r' Hb H k.
  destruct (build_charset_with_nonempty _ _ _ _ _ _ _ _ _ _ _ Hb)
    as [Hne Hall].
  pose proof (concat_nonempty parts Hne Hall) as Hpool.
  unfold generate_password, generate_password_with in H.
  fold build_charset in H. rewrite Hb in H.
  destruct (length <=? 0)%Z eqn:Hpos; [discriminate |].
  apply Z.leb_gt in Hpos. cbn [lift] in H.
  rewrite (bind_ok (ret parts) _ r parts r eq_refl) in H.
  destruct (length <? Z.of_nat (len parts))%Z eqn:Hcase.
  - rewrite (repeatM_choice (concat parts) zero _ Hpool) in H.
    injection H as _ <-. reflexivity.
  - apply Z.ltb_ge in Hcase.
    apply bind_inr in H. destruct H as [cs [r1 [Hcs H]]].
    apply bind_inr in H. destruct H as [fill [r2 [Hfill H]]].
    rewrite (repeatM_choice (concat parts) zero _ Hpool) in Hfill.
    injection Hfill as <- <-.
    destruct (mapM_choice parts Hall r) as [cs' [r1' [Hcs' Hcov]]].
    assert (Hlen : len parts = len cs).
    { rewrite Hcs in Hcs'. injection Hcs' as -> _.
      exact (Forall2_length Hcov). }
    rewrite (shuffle_from_entropy _ _ _ _ _ H k).
    rewrite (mapM_choice_entropy _ _ _ _ Hcs).
    f_equal. unfold len, str in *.
    rewrite length_app, length_map, length_seq. lia.
Qed.

Lemma generate_password_draws_witness :
  generate_password 6 true true false false false (fun k => 20 + k)
  = inr (lit "Vxyuzw", fun k => 20 + 11 + k)
  /\ forall k,
      20 + 11 + k
      = 20 + (Z.to_nat
                (if (6 <? Z.of_nat (len [ascii_lowercase; ascii_uppercase]))%Z
                 then 6 else 2 * 6 - 1) + k).
Proof.
  split; [vm_compute; reflexivity |].
  apply (generate_password_draws 6 true true false false false
           [ascii_lowercase; ascii_uppercase]
           (fun k => 20 + k) (lit "Vxyuzw") (fun k => 20 + 11 + k)).
  - reflexivity.
  - vm_compute. reflexivity.
Defined.

(** * The command line *)


Lemma generate_password_refuses length ul uu ud us ex r :
  (length <= 0)%Z \/ ul || uu || ud || us = false ->
  generate_password length ul uu ud us ex r
  = inl (if (length <=? 0)%Z then InvalidLength else NoCategorySelected).
Proof.
  intros H. destruct (length <=? 0)%Z eqn:Hle.
  - apply generate_invalid_length. now apply Z.leb_le.
  - apply Z.leb_gt in Hle. destruct H as [H | H]; [lia |].
    apply generate_build_fails; [assumption |].
    fold build_charset. now rewrite build_charset_flags, H.
Qed.


Lemma cli_loop_refuses n args ul uu ud us results w :
  (arg_length args <= 0)%Z \/ ul || uu || ud || us = false ->
  cli_loop (S n) args ul uu ud us results w
  = (inl (if (arg_length args <=? 0)%Z
          then InvalidLength else NoCategorySelected), w).
Proof.
  intros H. cbn [cli_loop].
  now rewrite (generate_password_refuses _ _ _ _ _ _ _ H).
Qed.

Lemma max_count_pos count : exists n, Z.to_nat (Z.max 1 count) = S n.
Proof. exists (Z.to_nat (Z.max 1 count) - 1). lia. Qed.



(** X10. A refused request prints no password. Without [--gui], a length
    that is not positive or the four [--no-...] options together end
    [cli_main] with status 2: the message of the error goes to the
    standard error after the word Error, the standard output and the
    clipboard are left as they were, whatever [--count] and [--copy]. *)
Theorem cli_main_refused :
  forall HAS_TK HAS_PYPERCLIP args w,
    arg_gui args = false ->
    (arg_length args <= 0)%Z
    \/ (arg_no_lower args = true /\ arg_no_upper args = true
        /\ arg_no_digits args = true /\ arg_no_symbols args = true) ->
    let (status, w') := cli_main HAS_TK HAS_PYPERCLIP args w in
    status = SystemExit 2
    /\ stdout w' = stdout w
    /\ clipboard w' = clipboard w
    /\ stderr w'
       = stderr w
         ++ [lit ("Error: "
                  ++ message (if (arg_length args <=? 0)%Z
                              then InvalidLength else NoCategorySelected))].
Proof.
  intros tk pc args w Hgui Hbad. unfold cli_main, cli_try. rewrite Hgui.
  destruct (max_count_pos (arg_count args)) as [n Hn]. rewrite Hn.
  rewrite cli_loop_refuses.
  - destruct (arg_length args <=? 0)%Z; repeat split.
  - destruct Hbad as [H | [-> [-> [-> ->]]]]; [now left | now right].
Qed.

Lemma cli_main_refused_witness :
  let args := {| arg_length := 12; arg_no_lower := true;
                 arg_no_upper := true; arg_no_digits := true;
                 arg_no_symbols := true; arg_exclude_ambiguous := false;
                 arg_count := 3; arg_gui := false; arg_copy := true |} in
  let w := {| stdout := []; stderr := []; clipboard := Some (lit "kept");
              entropy := fun k => k |} in
  let (status, w') := cli_main true true args w in
  status = SystemExit 2
  /\ stdout w' = []
  /\ clipboard w' = Some (lit "kept")
  /\ stderr w'
     = [lit "Error: At least one character type must be selected."].
Proof.
  intros args w.
  apply (cli_main_refused true true args w).
  - reflexivity.
  - right. repeat split.
Defined.





(** * The window *)




